(** * CVXPY [expressions/variable.py]: the symmetric expansion map and the
      canonicalization of a [Variable]

    A shallow embedding of [src/cvxpy/expressions/variable.py].

    - Python integers that are sizes and indices are [nat].  The float64
      coefficients of the sparse matrix (only ever the literal [1.0]) are
      the integers they denote.  A dense vector is a NumPy integer array
      ([Z] entries); SciPy converts it to float64 before it multiplies, so
      the product rounds every entry to the nearest float64 ([round64]) and
      computes with float64 additions and multiplications.
    - Python exceptions are the [Raise] branch of [result].
    - The three parallel lists [val_arr], [row_arr], [col_arr] and the
      counter [count] of [upper_tri_to_full] are the fields of [builder];
      the two nested [for] loops are two nested left folds over [range].
    - SciPy's COO and CSC formats are modelled by [coo_matrix] and
      [csc_matrix]; [tocsc] produces the canonical column compressed
      form (row indices sorted inside a column, duplicates summed). *)

From stdpp Require Import gmap strings list fin_maps pretty.

Open Scope Z_scope.
Open Scope nat_scope.

(** ** Exceptions *)

Inductive exn : Type :=
  | IndexError
  | KeyError
  | ValueError
  | TypeError.

Inductive result (A : Type) : Type :=
  | Ok (a : A)
  | Raise (e : exn).
Arguments Ok {A} a.
Arguments Raise {A} e.

#[global] Instance result_ret : MRet result := fun A a => Ok a.
#[global] Instance result_bind : MBind result := fun A B f m =>
  match m with
  | Ok a => f a
  | Raise e => Raise e
  end.

Definition raises {A} (m : result A) : Prop := ∃ e, m = Raise e.
Definition returns {A} (m : result A) : Prop := ∃ a, m = Ok a.

(** ** Sparse matrices *)

Module Sparse.

(** One stored coefficient: (row, column, value). *)
Definition triple : Type := nat * nat * Z.
Definition t_row (t : triple) : nat := t.1.1.
Definition t_col (t : triple) : nat := t.1.2.
Definition t_val (t : triple) : Z := t.2.

(** [scipy.sparse.coo_matrix]: the stored coefficients in the order they
    were given, and the shape. *)
Record coo_matrix : Type := {
  coo_triples : list triple;
  coo_shape : nat * nat
}.

(** [scipy.sparse.csc_matrix]: for each column (in order) the stored
    (row, value) pairs of that column, and the shape.  This is the content
    of [indptr], [indices] and [data]. *)
Record csc_matrix : Type := {
  csc_columns : list (list (nat * Z));
  csc_shape : nat * nat
}.

Fixpoint zip3 (vs : list Z) (rs cs : list nat) : list triple :=
  match vs, rs, cs with
  | v :: vs, r :: rs, c :: cs => (r, c, v) :: zip3 vs rs cs
  | _, _, _ => []
  end.

Definition in_shape (shape : nat * nat) (t : triple) : bool :=
  bool_decide (t_row t < shape.1) && bool_decide (t_col t < shape.2).

(** [sp.coo_matrix((data, (row, col)), shape)].  SciPy raises [ValueError]
    when the three arrays differ in length or an index exceeds the
    dimensions. *)
Definition mk_coo_matrix (data : list Z) (row col : list nat)
    (shape : nat * nat) : result coo_matrix :=
  if negb (bool_decide (length row = length data)
           && bool_decide (length col = length data))
  then Raise ValueError
  else if forallb (in_shape shape) (zip3 data row col)
  then Ok {| coo_triples := zip3 data row col; coo_shape := shape |}
  else Raise ValueError.

Definition sumZ (l : list Z) : Z := foldr Z.add 0%Z l.

(** The values stored at position (r, c), in order. *)
Definition vals_at (ts : list triple) (r c : nat) : list Z :=
  t_val <$> filter (λ t, t_row t = r ∧ t_col t = c) ts.

(** One column of the canonical CSC form: rows ascending, the duplicates of
    a position summed into one stored entry. *)
Definition csc_column (ts : list triple) (nrows c : nat) : list (nat * Z) :=
  omap (λ r, match vals_at ts r c with
             | [] => None
             | vs => Some (r, sumZ vs)
             end) (seq 0 nrows).

(** [.tocsc()] *)
Definition tocsc (m : coo_matrix) : csc_matrix :=
  {| csc_columns :=
       (λ c, csc_column (coo_triples m) (coo_shape m).1 c)
         <$> seq 0 (coo_shape m).2;
     csc_shape := coo_shape m |}.

(** The number of stored entries of column [c]. *)
Definition col_nnz (m : csc_matrix) (c : nat) : nat :=
  length (default [] (csc_columns m !! c)).

(** The dense coefficient at (r, c). *)
Definition csc_get (m : csc_matrix) (r c : nat) : Z :=
  sumZ (snd <$> filter (λ e, e.1 = r) (default [] (csc_columns m !! c))).

(** Conversion of an integer to float64: round to nearest, ties to even,
    with a significand of 53 bits.  The result is the integer that the
    float64 denotes (in the range of [castable] there is no overflow). *)
Definition round64 (z : Z) : Z :=
  let a := Z.abs z in
  if (a <? 2 ^ 53)%Z then z
  else
    let k := (Z.log2 a - 52)%Z in
    let q := (a / 2 ^ k)%Z in
    let rem := (a mod 2 ^ k)%Z in
    let half := (2 ^ (k - 1))%Z in
    let q' := if (half <? rem)%Z || ((rem =? half)%Z && Z.odd q)
              then (q + 1)%Z else q in
    (Z.sgn z * (q' * 2 ^ k))%Z.

(** float64 addition and multiplication of integer-valued operands: the
    exact result, rounded. *)
Definition fl_add (a b : Z) : Z := round64 (a + b).
Definition fl_mul (a b : Z) : Z := round64 (a * b).

(** The entries of a NumPy integer array ([int64] or [uint64]); a list
    with a larger Python integer becomes an object array. *)
Definition castable (x : Z) : bool := (- 2 ^ 63 <=? x)%Z && (x <? 2 ^ 64)%Z.

(** The integers that float64 holds exactly. *)
Definition exact64 (x : Z) : bool := (round64 x =? x)%Z.

(** The vector as SciPy multiplies it: converted to float64; an object
    array has no supported conversion ([TypeError]). *)
Definition as_float64 (p : list Z) : result (list Z) :=
  if forallb castable p then Ok (round64 <$> p) else Raise TypeError.

(** The products that [csc_matvec] adds into entry [r] of the result, in
    the order it visits them: columns ascending, and inside a column the
    stored entries of row [r]. *)
Definition row_terms (m : csc_matrix) (x : list Z) (r : nat) : list Z :=
  c ← seq 0 (csc_shape m).2;
  (λ e, fl_mul e.2 (default 0%Z (x !! c)))
    <$> filter (λ e, e.1 = r) (default [] (csc_columns m !! c)).

(** [m * p] for a dense vector [p]: SciPy raises [ValueError] on a
    dimension mismatch, converts [p] to float64, and accumulates
    [y[r] += data * x[c]] over the stored entries, from zero. *)
Definition matvec (m : csc_matrix) (p : list Z) : result (list Z) :=
  if bool_decide (length p = (csc_shape m).2)
  then
    x ← as_float64 p;
    mret ((λ r, foldl fl_add 0%Z (row_terms m x r)) <$> seq 0 (csc_shape m).1)
  else Raise ValueError.

(** [sp.eye(k).tocsc()] *)
Definition eye (k : nat) : csc_matrix :=
  {| csc_columns := (λ c, [(c, 1%Z)]) <$> seq 0 k; csc_shape := (k, k) |}.

(** [numpy.reshape(y, (rows, cols), 'F')]: entry (r, c) of the column-major
    reading of a flat vector. *)
Definition reshape_F (y : list Z) (rows : nat) (r c : nat) : Z :=
  default 0%Z (y !! (c * rows + r)).

(** The column-major flattening of the [rows] by [cols] matrix [a]. *)
Definition flatten_F (rows cols : nat) (a : nat → nat → Z) : list Z :=
  c ← seq 0 cols; (λ r, a r c) <$> seq 0 rows.

End Sparse.
Import Sparse.

(** ** [upper_tri_to_full] *)

Record builder : Type := {
  val_arr : list Z;
  row_arr : list nat;
  col_arr : list nat;
  count : nat
}.

Definition builder0 : builder :=
  {| val_arr := []; row_arr := []; col_arr := []; count := 0 |}.

(** [col_arr.append(c); row_arr.append(r); val_arr.append(1.0)] *)
Definition append_entry (r c : nat) (b : builder) : builder :=
  {| val_arr := val_arr b ++ [1%Z];
     row_arr := row_arr b ++ [r];
     col_arr := col_arr b ++ [c];
     count := count b |}.

(** The body of the inner loop. *)
Definition inner_body (n i j : nat) (b : builder) : builder :=
  let b1 := append_entry (j * n + i) (count b) b in
  let b2 := if bool_decide (i ≠ j)
            then append_entry (i * n + j) (count b1) b1
            else b1 in
  {| val_arr := val_arr b2; row_arr := row_arr b2; col_arr := col_arr b2;
     count := count b2 + 1 |}.

(** [range(a, b)] *)
Definition range (a b : nat) : list nat := seq a (b - a).

Definition fill (n : nat) : builder :=
  foldl (λ b i, foldl (λ b j, inner_body n i j b) b (range i n))
        builder0 (range 0 n).

Definition upper_tri_to_full (n : nat) : result csc_matrix :=
  let entries := n * (n + 1) / 2 in
  let b := fill n in
  m ← mk_coo_matrix (val_arr b) (row_arr b) (col_arr b) (n * n, entries);
  mret (tocsc m).


(** ** The collaborators of [Variable] *)

(** Python's [t[i]] on a tuple and [d[k]] on a dict. *)
Definition tuple_get (t : list nat) (i : nat) : result nat :=
  match t !! i with
  | Some x => Ok x
  | None => Raise IndexError
  end.

Definition dict_get (d : gmap string bool) (k : string) : result bool :=
  match d !! k with
  | Some x => Ok x
  | None => Raise KeyError
  end.

(** A numeric array; the value slot of a variable holds [None] or one. *)
Record ndarray : Type := {
  nd_shape : list nat;
  nd_data : list Z
}.
Definition pyvalue : Type := option ndarray.

(** Modelled from the spec: the affine-operator builder [cvxpy.lin_ops.lin_utils]
    is not part of the sources.  The specification treats its functions as
    black boxes that return a term or a constraint, so each is a free
    constructor that records its arguments. *)
Inductive lin_op : Type :=
  | create_var (shape : list nat) (var_id : nat)
  | create_const (value : csc_matrix) (shape : list nat) (sparse : bool)
  | mul_expr (lh_op rh_op : lin_op) (shape : list nat)
  | reshape (operator : lin_op) (shape : list nat)
  | neg (operator : lin_op).

(** Modelled from the spec: the constraints of [lin_utils] ([create_geq],
    [create_leq]) and the semidefinite constraint [cvxpy.constraints.psd.PSD],
    both absent from the sources, as opaque values built from one term. *)
Inductive constraint : Type :=
  | create_geq (lh_op : lin_op)
  | create_leq (lh_op : lin_op)
  | PSD (expr : lin_op).

(** ** [class Variable(Leaf)] *)

Module Var.

Record t : Type := {
  id : nat;
  _name : string;
  shape : list nat;
  attributes : gmap string bool;
  primal_value : pyvalue
}.

(** A method reads and writes the fields of [self] and returns or raises. *)
Definition method (A : Type) : Type := t → result A * t.

#[global] Instance method_ret : MRet method := λ A a self, (Ok a, self).
#[global] Instance method_bind : MBind method := λ A B f m self,
  match m self with
  | (Ok a, self') => f a self'
  | (Raise e, self') => (Raise e, self')
  end.

Definition read {A} (f : t → A) : method A := λ self, (Ok (f self), self).
Definition lift {A} (r : t → result A) : method A := λ self, (r self, self).
Definition write_primal_value (v : pyvalue) : method unit := λ self,
  (Ok (),
   {| id := id self; _name := _name self; shape := shape self;
      attributes := attributes self; primal_value := v |}).

Definition attribute_names : list string :=
  ["nonneg"; "nonpos"; "symmetric"; "PSD"; "NSD"].

(** Modelled from the spec: [Leaf.is_nonneg], [Leaf.is_nonpos] and
    [Leaf.is_symmetric] are not part of the sources.  The first two read the
    flag of the same name; symmetric is set directly or implied by PSD or
    NSD. *)
Definition is_nonneg (self : t) : result bool :=
  dict_get (attributes self) "nonneg".
Definition is_nonpos (self : t) : result bool :=
  dict_get (attributes self) "nonpos".
Definition is_symmetric (self : t) : result bool :=
  a ← dict_get (attributes self) "symmetric";
  b ← dict_get (attributes self) "PSD";
  c ← dict_get (attributes self) "NSD";
  mret (a || b || c).

(** [def name(self)] *)
Definition name : method string := read _name.

(** [def save_value(self, value)] *)
Definition save_value (value : pyvalue) : method unit :=
  write_primal_value value.

(** [@property value] *)
Definition value : method pyvalue := read primal_value.

(** [@property grad] *)
Definition grad : method (list (t * csc_matrix)) :=
  self ← read (λ self, self);
  r ← lift (λ self, tuple_get (shape self) 0);
  c ← lift (λ self, tuple_get (shape self) 1);
  mret [(self, eye (r * c))].

(** [def variables(self)] *)
Definition variables : method (list t) :=
  self ← read (λ self, self);
  mret [self].

(** The first half of [canonicalize]: the affine term. *)
Definition canonical_obj (self : t) : result lin_op :=
  sym ← is_symmetric self;
  if sym : bool then
    n ← tuple_get (shape self) 0;
    let shape := [n * (n + 1) / 2; 1] in
    let obj := create_var shape (id self) in
    m ← upper_tri_to_full n;
    let mat := create_const m [n * n; n * (n + 1) / 2] true in
    let obj := mul_expr mat obj [n * n; 1] in
    mret (reshape obj [n; n])
  else
    mret (create_var (Var.shape self) (id self)).

(** The second half: the [if]/[elif] chain that fills [constr]. *)
Definition canonical_constr (self : t) (obj : lin_op)
    : result (list constraint) :=
  nonneg ← is_nonneg self;
  if nonneg : bool then mret [create_geq obj]
  else
    nonpos ← is_nonpos self;
    if nonpos : bool then mret [create_leq obj]
    else
      psd ← dict_get (attributes self) "PSD";
      if psd : bool then mret [PSD obj]
      else
        nsd ← dict_get (attributes self) "NSD";
        if nsd : bool then mret [PSD (neg obj)]
        else mret [].

(** [def canonicalize(self)] *)
Definition canonicalize : method (lin_op * list constraint) :=
  lift (λ self,
    obj ← canonical_obj self;
    constr ← canonical_constr self obj;
    mret (obj, constr)).

Section Leaf.
(** [Leaf._validate_value] is not part of the sources: a check that reads
    the variable and returns the value to store, or raises. *)
Context (_validate_value : t → pyvalue → result pyvalue).

(** [@value.setter] *)
Definition set_value (val : pyvalue) : method unit :=
  val ← lift (λ self, _validate_value self val);
  save_value val.
End Leaf.

(** Modelled from the spec: the shape validation that the setter delegates
    to [Leaf], absent from the sources.  [None] is accepted as it is; an
    array is accepted when its shape is the shape of the variable. *)
Definition validate_shape (self : t) (val : pyvalue) : result pyvalue :=
  match val with
  | None => Ok None
  | Some a =>
      if bool_decide (nd_shape a = shape self) then Ok (Some a)
      else Raise ValueError
  end.

(** Modelled from the spec: [lu.get_id], absent from the sources, hands out
    the current value of a process-wide counter and advances it. *)
Definition get_id (counter : nat) : nat * nat := (counter, S counter).

Definition default_attributes : gmap string bool :=
  list_to_map ((λ k, (k, false)) <$> attribute_names).

Definition is_square (shape : list nat) : bool :=
  match shape with
  | [r; c] => bool_decide (r = c)
  | _ => false
  end.

Definition flag (attrs : gmap string bool) (k : string) : bool :=
  default false (attrs !! k).

(** Modelled from the spec: [Leaf.__init__], absent from the sources,
    stores the shape and the attribute flags (every flag that is not given
    is false) and refuses a symmetric, PSD or NSD variable whose shape is
    not square, a shape of more than two dimensions and an unknown flag. *)
Definition leaf_init (shape : list nat) (kwargs : gmap string bool)
    : result (list nat * gmap string bool) :=
  if negb (bool_decide (dom kwargs ⊆ dom default_attributes))
  then Raise TypeError
  else if negb (bool_decide (length shape ≤ 2))
  then Raise ValueError
  else
    let attrs := kwargs ∪ default_attributes in
    if (flag attrs "symmetric" || flag attrs "PSD" || flag attrs "NSD")
       && negb (is_square shape)
    then Raise ValueError
    else Ok (shape, attrs).

Section Settings.
(** [s.VAR_PREFIX] of [cvxpy.settings], absent from the sources. *)
Context (VAR_PREFIX : string).

(** [def __init__(self, shape=(), name=None, var_id=None, **kwargs)]; the
    id counter is threaded through. *)
Definition init (shape : list nat) (name : option string)
    (var_id : option nat) (kwargs : gmap string bool) (counter : nat)
    : result t * nat :=
  let '(id, counter) :=
    match var_id with
    | None => get_id counter
    | Some i => (i, counter)
    end in
  let _name :=
    match name with
    | None => VAR_PREFIX +:+ pretty id
    | Some nm => nm
    end in
  match leaf_init shape kwargs with
  | Ok (shape, attrs) =>
      (Ok {| id := id; _name := _name; shape := shape;
             attributes := attrs; primal_value := None |}, counter)
  | Raise e => (Raise e, counter)
  end.
End Settings.

(** The invariants of a constructed variable: every recognised flag is
    present, the shape has at most two dimensions, and a symmetric, PSD or
    NSD variable is square. *)
Definition well_constructed (self : t) : bool :=
  forallb (λ k, bool_decide (is_Some (attributes self !! k))) attribute_names
  && bool_decide (length (shape self) ≤ 2)
  && (if flag (attributes self) "symmetric" || flag (attributes self) "PSD"
         || flag (attributes self) "NSD"
      then is_square (shape self) else true).

(** A variable with id 0 and name "x", for examples. *)
Definition sample (shape : list nat) (kwargs : gmap string bool) : t :=
  {| id := 0; _name := "x"; shape := shape;
     attributes := kwargs ∪ default_attributes; primal_value := None |}.

End Var.

(** ** The packed enumeration of the upper triangle *)

(** "for row i from 0 to n-1, for column j from i to n-1" *)
Definition tri_pairs (n : nat) : list (nat * nat) :=
  i ← range 0 n; (λ j, (i, j)) <$> range i n.

(** The packed index of the pair (i, j): its position in the enumeration. *)
Definition pair_index (n i j : nat) : nat :=
  default 0 (fst <$> list_find (λ p, p = (i, j)) (tri_pairs n)).

(** The full symmetric matrix of a packed vector: entries (i, j) and (j, i)
    are the entry of [p] for the pair (min, max). *)
Definition sym_full (n : nat) (p : list Z) (r c : nat) : Z :=
  default 0%Z (p !! pair_index n (r `min` c) (r `max` c)).



(** The coefficients recorded for the pair (i, j) with packed index [k]. *)
Definition emit (n k : nat) (ij : nat * nat) : list triple :=
  (ij.2 * n + ij.1, k, 1%Z) ::
  (if bool_decide (ij.1 ≠ ij.2) then [(ij.1 * n + ij.2, k, 1%Z)] else []).

Fixpoint emit_all (n k : nat) (ps : list (nat * nat)) : list triple :=
  match ps with
  | [] => []
  | ij :: ps => emit n k ij ++ emit_all n (S k) ps
  end.

(** The canonical column of the pair (i, j): rows ascending. *)
Definition pair_column (n : nat) (ij : nat * nat) : list (nat * Z) :=
  if bool_decide (ij.1 = ij.2) then [(ij.1 * n + ij.1, 1%Z)]
  else [(ij.1 * n + ij.2, 1%Z); (ij.2 * n + ij.1, 1%Z)].

(** The matrix of [upper_tri_to_full n], column by column. *)
Definition expansion_matrix (n : nat) : csc_matrix :=
  {| csc_columns := pair_column n <$> tri_pairs n;
     csc_shape := (n * n, n * (n + 1) / 2) |}.

(** Reading the upper triangle of a matrix back in the order of the
    enumeration. *)
Definition pack_upper (n : nat) (a : nat → nat → Z) : list Z :=
  (λ ij, a ij.1 ij.2) <$> tri_pairs n.

(** The shape that a term of [lin_utils] carries: every builder stores the
    shape it is given, and [neg] keeps the shape of its operand. *)
Fixpoint lin_op_shape (e : lin_op) : list nat :=
  match e with
  | create_var shape _ => shape
  | create_const _ shape _ => shape
  | mul_expr _ _ shape => shape
  | reshape _ shape => shape
  | neg e => lin_op_shape e
  end.

(** The term that a constraint is about. *)
Definition constr_expr (c : constraint) : lin_op :=
  match c with
  | create_geq e | create_leq e | PSD e => e
  end.

Definition size_of (shape : list nat) : nat := foldr Nat.mul 1 shape.

(** The declared shapes of a term agree: a constant with the shape of its
    matrix, a product (a, b) * (b, c) with (a, c), a reshape with as many
    entries as its operand. *)
Fixpoint shapes_agree (e : lin_op) : bool :=
  match e with
  | create_var _ _ => true
  | create_const m shape _ =>
      bool_decide (shape = [(csc_shape m).1; (csc_shape m).2])
  | mul_expr lh rh shape =>
      shapes_agree lh && shapes_agree rh &&
      match lin_op_shape lh, lin_op_shape rh with
      | [a; b], [b'; c] => bool_decide (b = b') && bool_decide (shape = [a; c])
      | _, _ => false
      end
  | reshape e shape =>
      shapes_agree e && bool_decide (size_of shape = size_of (lin_op_shape e))
  | neg e => shapes_agree e
  end.

(** The builder holds the coefficients [ts] and has counted [k] pairs. *)
Definition holds (b : builder) (ts : list triple) (k : nat) : Prop :=
  val_arr b = t_val <$> ts ∧ row_arr b = t_row <$> ts ∧
  col_arr b = t_col <$> ts ∧ count b = k.

Example tri_pairs_3 :
  tri_pairs 3 = [(0, 0); (0, 1); (0, 2); (1, 1); (1, 2); (2, 2)].
Proof. reflexivity. Qed.

Example init_default :
  Var.init "var" [] None None ∅ 7 =
  (Ok {| Var.id := 7; Var._name := "var7"; Var.shape := [];
         Var.attributes := Var.default_attributes;
         Var.primal_value := None |}, 8).
Proof. vm_compute. reflexivity. Qed.

(** ** The loops of [upper_tri_to_full] *)

Lemma emit_all_app n k ps qs :
  emit_all n k (ps ++ qs) = emit_all n k ps ++ emit_all n (k + length ps) qs.
Proof.
  revert k. induction ps as [|ij ps IH]; intros k; simpl.
  - by rewrite Nat.add_0_r.
  - rewrite IH, <- app_assoc.
    by replace (k + S (length ps)) with (S k + length ps) by lia.
Qed.

Lemma emit_all_snoc n ps ij :
  emit_all n 0 (ps ++ [ij]) = emit_all n 0 ps ++ emit n (length ps) ij.
Proof. rewrite emit_all_app. simpl. by rewrite app_nil_r. Qed.

Lemma holds_inner_body n i j b ts k :
  holds b ts k → holds (inner_body n i j b) (ts ++ emit n k (i, j)) (S k).
Proof.
  destruct b as [vs rs cs cnt]. unfold holds, inner_body, emit. simpl.
  intros (-> & -> & -> & ->).
  case_bool_decide; simpl; rewrite !fmap_app; simpl;
    rewrite <- ?app_assoc; simpl; repeat split; lia.
Qed.

Lemma holds_inner_loop n i js : ∀ b ps,
  holds b (emit_all n 0 ps) (length ps) →
  let ps' := ps ++ ((λ j, (i, j)) <$> js) in
  holds (foldl (λ b j, inner_body n i j b) b js)
        (emit_all n 0 ps') (length ps').
Proof.
  induction js as [|j js IH]; intros b ps Hb; cbv zeta; simpl.
  - by rewrite app_nil_r.
  - rewrite cons_middle, (assoc_L (++)).
    apply IH. rewrite emit_all_snoc, length_app. simpl.
    rewrite Nat.add_1_r. by apply holds_inner_body.
Qed.

Lemma holds_outer_loop n rows : ∀ b ps,
  holds b (emit_all n 0 ps) (length ps) →
  let ps' := ps ++ (i ← rows; (λ j, (i, j)) <$> range i n) in
  holds (foldl (λ b i, foldl (λ b j, inner_body n i j b) b (range i n))
               b rows)
        (emit_all n 0 ps') (length ps').
Proof.
  induction rows as [|i rows IH]; intros b ps Hb; cbv zeta.
  - simpl. by rewrite app_nil_r.
  - rewrite bind_cons, (assoc_L (++)). simpl foldl.
    apply IH. by apply holds_inner_loop.
Qed.

Lemma fill_holds n :
  holds (fill n) (emit_all n 0 (tri_pairs n)) (length (tri_pairs n)).
Proof.
  unfold fill, tri_pairs.
  apply (holds_outer_loop n (range 0 n) builder0 []).
  by repeat split.
Qed.

Lemma zip3_fmap ts : zip3 (t_val <$> ts) (t_row <$> ts) (t_col <$> ts) = ts.
Proof.
  induction ts as [|[[r c] v] ts IH]; csimpl; [done|]. by rewrite IH.
Qed.

(** ** The enumeration [tri_pairs] *)

Lemma elem_of_range a b k : k ∈ range a b ↔ a ≤ k < b.
Proof. unfold range. rewrite elem_of_seq. lia. Qed.

Lemma elem_of_tri_pairs n i j : (i, j) ∈ tri_pairs n ↔ i ≤ j < n.
Proof.
  unfold tri_pairs. rewrite list_elem_of_bind. split.
  - intros (i' & Hj & Hi). apply list_elem_of_fmap in Hj as (j' & [= -> ->] & Hj).
    apply elem_of_range in Hj, Hi. lia.
  - intros Hij. exists i. split.
    + apply list_elem_of_fmap. exists j. split; [done|]. apply elem_of_range. lia.
    + apply elem_of_range. lia.
Qed.

Lemma NoDup_tri_pairs n : NoDup (tri_pairs n).
Proof.
  unfold tri_pairs. apply NoDup_bind.
  - intros i1 i2 [i j] _ _ H1 H2.
    apply list_elem_of_fmap in H1 as (? & [= -> ->] & _).
    by apply list_elem_of_fmap in H2 as (? & [= -> ->] & _).
  - intros i _. apply NoDup_fmap_2; [|apply NoDup_seq].
    by intros ?? [= ->].
  - apply NoDup_seq.
Qed.

Lemma length_rows_from m : ∀ i0,
  length (i ← seq i0 m; (λ j, (i, j)) <$> range i (i0 + m)) * 2 = m * (m + 1).
Proof.
  induction m as [|m IH]; intros i0; [done|].
  change (seq i0 (S m)) with (i0 :: seq (S i0) m).
  rewrite bind_cons, length_app, length_fmap. unfold range at 1.
  rewrite length_seq.
  replace (i0 + S m) with (S i0 + m) by lia.
  specialize (IH (S i0)). lia.
Qed.

Lemma length_tri_pairs n : length (tri_pairs n) = n * (n + 1) / 2.
Proof.
  pose proof (length_rows_from n 0) as H. simpl in H.
  unfold tri_pairs. change (range 0 n) with (seq 0 (n - 0)).
  replace (n - 0) with n by lia.
  apply Nat.div_unique_exact; lia.
Qed.

Lemma tri_pairs_lookup n k i j :
  tri_pairs n !! k = Some (i, j) → i ≤ j < n ∧ k < n * (n + 1) / 2.
Proof.
  intros H. split.
  - apply elem_of_tri_pairs. by eapply list_elem_of_lookup_2.
  - rewrite <- length_tri_pairs. by eapply lookup_lt_Some.
Qed.

Lemma pair_index_lookup n i j :
  i ≤ j < n → tri_pairs n !! pair_index n i j = Some (i, j).
Proof.
  intros Hij. unfold pair_index.
  destruct (list_find_elem_of (λ p, p = (i, j)) (tri_pairs n) (i, j))
    as [[k p] Hk]; [by apply elem_of_tri_pairs|done|].
  rewrite Hk. simpl. by apply list_find_Some in Hk as (? & -> & _).
Qed.

Lemma pair_index_unique n k i j :
  tri_pairs n !! k = Some (i, j) → pair_index n i j = k.
Proof.
  intros Hk. eapply NoDup_lookup; [apply NoDup_tri_pairs| |done].
  apply pair_index_lookup. by apply tri_pairs_lookup in Hk as [? _].
Qed.

(** ** The columns of the assembled matrix *)

Lemma filter_col_emit n k c ij :
  filter (λ t, t_col t = c) (emit n k ij) = if decide (k = c) then emit n k ij else [].
Proof.
  unfold emit. case_bool_decide; case_decide; subst;
    repeat (rewrite filter_cons; unfold t_col; simpl; case_decide; try done).
Qed.

Lemma filter_col_emit_all n c ps : ∀ k,
  filter (λ t, t_col t = c) (emit_all n k ps) =
  if decide (k ≤ c) then from_option (emit n c) [] (ps !! (c - k)) else [].
Proof.
  induction ps as [|ij ps IH]; intros k; cbn [emit_all].
  - by case_decide.
  - rewrite filter_app, IH, filter_col_emit.
    destruct (decide (k = c)) as [->|Hne].
    + rewrite decide_False, decide_True, Nat.sub_diag by lia. simpl.
      by rewrite app_nil_r.
    + simpl. destruct (decide (S k ≤ c)) as [Hle|Hgt].
      * rewrite decide_True by lia.
        by replace (c - k) with (S (c - S k)) by lia.
      * by rewrite decide_False by lia.
Qed.

Lemma vals_at_emit_all n ps r c :
  vals_at (emit_all n 0 ps) r c =
  t_val <$> filter (λ t, t_row t = r) (from_option (emit n c) [] (ps !! c)).
Proof.
  unfold vals_at. rewrite <- list_filter_filter, (filter_col_emit_all n c ps 0).
  by rewrite decide_True, Nat.sub_0_r by lia.
Qed.

(** The stored entry of row [r] in the column of the pair (i, j). *)
Lemma stored_entry_emit n c i j r :
  i ≤ j < n →
  match t_val <$> filter (λ t, t_row t = r) (emit n c (i, j)) with
  | [] => None
  | vs => Some (r, sumZ vs)
  end = if decide (r = i * n + j ∨ r = j * n + i) then Some (r, 1%Z) else None.
Proof.
  intros Hij. unfold emit. simpl. case_bool_decide as Hd.
  - assert (i * n + j ≠ j * n + i) by nia.
    rewrite !filter_cons, filter_nil. unfold t_row. simpl.
    repeat case_decide; simpl; try done; try lia; naive_solver.
  - rewrite !filter_cons, filter_nil. unfold t_row. simpl.
    assert (i = j) as -> by (destruct (decide (i = j)); [done|naive_solver]).
    repeat case_decide; simpl; try done; try lia; naive_solver.
Qed.

Lemma omap_seq_none {A} (f : nat → option A) s m :
  (∀ r, s ≤ r < s + m → f r = None) → omap f (seq s m) = [].
Proof.
  revert s. induction m as [|m IH]; intros s Hf; simpl; [done|].
  rewrite Hf by lia. apply IH. intros r ?. apply Hf. lia.
Qed.

Lemma omap_seq_split {A} (f : nat → option A) s m a :
  s ≤ a < s + m →
  omap f (seq s m) =
  omap f (seq s (a - s)) ++ from_option (λ x, [x]) [] (f a)
    ++ omap f (seq (S a) (s + m - S a)).
Proof.
  intros Ha.
  replace m with ((a - s) + S (s + m - S a)) at 1 by lia.
  rewrite seq_app, omap_app. f_equal.
  replace (s + (a - s)) with a by lia. simpl. by destruct (f a).
Qed.

Lemma omap_pointwise {A B} (f g : A → option B) (l : list A) :
  (∀ x, f x = g x) → omap f l = omap g l.
Proof.
  intros Hfg. induction l as [|x l IH]; [done|]. csimpl. by rewrite Hfg, IH.
Qed.

Lemma csc_column_pair n ps c i j :
  i ≤ j < n → ps !! c = Some (i, j) →
  csc_column (emit_all n 0 ps) (n * n) c = pair_column n (i, j).
Proof.
  intros Hij Hc. unfold csc_column.
  rewrite (omap_pointwise _ (λ r, if decide (r = i * n + j ∨ r = j * n + i)
                                  then Some (r, 1%Z) else None));
    [|intros r; rewrite vals_at_emit_all, Hc; by apply stored_entry_emit].
  unfold pair_column. simpl. case_bool_decide as Hd.
  - subst j. rewrite (omap_seq_split _ 0 (n * n) (i * n + i)) by nia.
    rewrite decide_True by lia. simpl.
    rewrite !omap_seq_none; [done|..]; intros r ?; apply decide_False; lia.
  - assert (i * n + j < j * n + i) by nia.
    rewrite (omap_seq_split _ 0 (n * n) (i * n + j)) by nia.
    rewrite decide_True by lia. simpl.
    rewrite (omap_seq_split _ (S (i * n + j)) _ (j * n + i)) by nia.
    rewrite decide_True by lia. simpl.
    rewrite !omap_seq_none; [done|..]; intros r ?; apply decide_False; lia.
Qed.

Lemma emit_in_shape n k N i j :
  i ≤ j < n → k < N → forallb (in_shape (n * n, N)) (emit n k (i, j)) = true.
Proof.
  intros Hij Hk. unfold emit, in_shape, t_row, t_col. simpl.
  assert (j * n + i < n * n) by nia. assert (i * n + j < n * n) by nia.
  destruct (bool_decide (i ≠ j)); simpl; rewrite !bool_decide_eq_true_2; done.
Qed.

Lemma emit_all_in_shape n N ps : ∀ k,
  (∀ i j, (i, j) ∈ ps → i ≤ j < n) → k + length ps ≤ N →
  forallb (in_shape (n * n, N)) (emit_all n k ps) = true.
Proof.
  induction ps as [|[i j] ps IH]; intros k Hps Hk; cbn [emit_all]; [done|].
  simpl in Hk. rewrite forallb_app, emit_in_shape, IH; try done; try lia.
  - intros i' j' ?. apply Hps. by right.
  - apply Hps. by left.
Qed.

(** The matrix that [upper_tri_to_full] returns, column by column. *)
Lemma upper_tri_to_full_columns n :
  upper_tri_to_full n = Ok (expansion_matrix n).
Proof.
  unfold upper_tri_to_full.
  destruct (fill_holds n) as (-> & -> & -> & _).
  unfold mk_coo_matrix. rewrite !length_fmap, !bool_decide_eq_true_2 by done.
  simpl negb. cbv iota. rewrite zip3_fmap, emit_all_in_shape;
    [|intros i j; apply elem_of_tri_pairs|by rewrite length_tri_pairs].
  simpl. unfold tocsc, expansion_matrix. simpl. do 2 f_equal.
  apply list_eq. intros c. rewrite !list_lookup_fmap.
  destruct (tri_pairs n !! c) as [[i j]|] eqn:Hc; simpl.
  - pose proof (tri_pairs_lookup _ _ _ _ Hc) as [Hij Hlt].
    rewrite lookup_seq_lt by done. simpl. f_equal.
    by apply csc_column_pair.
  - apply lookup_ge_None in Hc. rewrite length_tri_pairs in Hc.
    by rewrite lookup_seq_ge.
Qed.

(** ** The dense coefficients and the product with a packed vector *)

Lemma csc_get_pair n c i j r :
  i ≤ j < n → tri_pairs n !! c = Some (i, j) →
  csc_get (expansion_matrix n) r c =
  if decide (r = i * n + j ∨ r = j * n + i) then 1%Z else 0%Z.
Proof.
  intros Hij Hc. unfold csc_get. simpl.
  rewrite list_lookup_fmap, Hc. simpl. unfold pair_column. simpl.
  case_bool_decide as Hd.
  - subst j. rewrite filter_cons, filter_nil. simpl.
    destruct (decide (i * n + i = r)) as [<-|Hr].
    + by rewrite decide_True by lia.
    + by rewrite decide_False by lia.
  - assert (i * n + j ≠ j * n + i) by nia.
    rewrite !filter_cons, filter_nil. simpl.
    destruct (decide (i * n + j = r)) as [<-|Hr1].
    + by rewrite decide_False, decide_True by lia.
    + destruct (decide (j * n + i = r)) as [<-|Hr2].
      * by rewrite decide_True by lia.
      * by rewrite decide_False by lia.
Qed.

Lemma flatten_F_S rows cols a :
  flatten_F rows (S cols) a =
  flatten_F rows cols a ++ ((λ r, a r cols) <$> seq 0 rows).
Proof.
  unfold flatten_F. rewrite seq_S, bind_app. csimpl. by rewrite app_nil_r.
Qed.

Lemma length_flatten_F rows cols a :
  length (flatten_F rows cols a) = cols * rows.
Proof.
  induction cols as [|cols IH]; [done|].
  rewrite flatten_F_S, length_app, IH, length_fmap, length_seq. lia.
Qed.

Lemma lookup_flatten_F rows cols a r c :
  r < rows → c < cols → flatten_F rows cols a !! (c * rows + r) = Some (a r c).
Proof.
  intros Hr. induction cols as [|cols IH]; intros Hc; [lia|].
  rewrite flatten_F_S. destruct (decide (c = cols)) as [->|Hne].
  - rewrite lookup_app_r; rewrite length_flatten_F; [|lia].
    replace (cols * rows + r - cols * rows) with r by lia.
    by rewrite list_lookup_fmap, lookup_seq_lt.
  - rewrite lookup_app_l; [apply IH; lia|].
    rewrite length_flatten_F. nia.
Qed.

Lemma flat_index_inj n a b c d :
  b < n → d < n → a * n + b = c * n + d → a = c ∧ b = d.
Proof.
  intros Hb Hd Heq.
  destruct (lt_eq_lt_dec a c) as [[Hlt| ->]|Hgt]; [|lia|].
  - assert (a * n + n ≤ c * n) by nia. lia.
  - assert (c * n + n ≤ a * n) by nia. lia.
Qed.

(** *** Rounding to float64 *)

Section Rounding.
Local Open Scope Z_scope.

Lemma round64_small z : Z.abs z < 2 ^ 53 → round64 z = z.
Proof. intros H. unfold round64. apply Z.ltb_lt in H. by rewrite H. Qed.

(** A significand between 2^52 and 2^53 at a positive exponent is held
    exactly. *)
Lemma round64_scaled (s m k : Z) :
  s = 1 ∨ s = -1 → 2 ^ 52 ≤ m ≤ 2 ^ 53 → 1 ≤ k →
  round64 (s * (m * 2 ^ k)) = s * (m * 2 ^ k).
Proof.
  intros Hs Hm Hk.
  assert (0 < 2 ^ k) as Hpk by (apply Z.pow_pos_nonneg; lia).
  assert (0 < 2 ^ 52) as Hp52 by (apply Z.pow_pos_nonneg; lia).
  assert (Z.abs (s * (m * 2 ^ k)) = m * 2 ^ k) as Habs
    by (destruct Hs as [-> | ->]; nia).
  assert (Z.sgn (s * (m * 2 ^ k)) = s) as Hsgn
    by (destruct Hs as [-> | ->]; [apply Z.sgn_pos|apply Z.sgn_neg]; nia).
  unfold round64. rewrite Habs, Hsgn.
  assert (2 ^ 53 ≤ m * 2 ^ k) as Hbig.
  { replace (2 ^ 53) with (2 ^ 52 * 2 ^ 1) by reflexivity.
    assert (2 ^ 1 ≤ 2 ^ k) by (apply Z.pow_le_mono_r; lia). nia. }
  destruct (Z.ltb_spec (m * 2 ^ k) (2 ^ 53)) as [Hlt|_]; [lia|].
  destruct (Z.eq_dec m (2 ^ 53)) as [->|Hne].
  - assert (Z.log2 (2 ^ 53 * 2 ^ k) = 53 + k) as Hl.
    { rewrite <- Z.pow_add_r by lia. apply Z.log2_pow2. lia. }
    rewrite Hl. replace (53 + k - 52) with (k + 1) by lia.
    replace (2 ^ 53 * 2 ^ k) with (2 ^ 52 * 2 ^ (k + 1)).
    2:{ rewrite <- !Z.pow_add_r by lia. f_equal. lia. }
    assert (0 < 2 ^ (k + 1)) by (apply Z.pow_pos_nonneg; lia).
    rewrite Z.div_mul, Z.mod_mul by lia.
    replace (k + 1 - 1) with k by lia.
    destruct (Z.ltb_spec (2 ^ k) 0) as [E1|E1];
      [exfalso; exact (Z.lt_asymm _ _ Hpk E1)|].
    destruct (Z.eqb_spec 0 (2 ^ k)) as [E2|E2];
      [exfalso; rewrite <- E2 in Hpk; exact (Z.lt_irrefl _ Hpk)|].
    reflexivity.
  - assert (Z.log2 (m * 2 ^ k) = 52 + k) as Hl.
    { apply Z.log2_unique; [lia|].
      replace (Z.succ (52 + k)) with (53 + k) by lia.
      rewrite !Z.pow_add_r by lia. split.
      - apply Z.mul_le_mono_nonneg_r; lia.
      - apply Z.mul_lt_mono_pos_r; lia. }
    rewrite Hl. replace (52 + k - 52) with k by lia.
    rewrite Z.div_mul, Z.mod_mul by lia.
    assert (0 < 2 ^ (k - 1)) as Hh by (apply Z.pow_pos_nonneg; lia).
    destruct (Z.ltb_spec (2 ^ (k - 1)) 0) as [E1|E1];
      [exfalso; exact (Z.lt_asymm _ _ Hh E1)|].
    destruct (Z.eqb_spec 0 (2 ^ (k - 1))) as [E2|E2];
      [exfalso; rewrite <- E2 in Hh; exact (Z.lt_irrefl _ Hh)|].
    reflexivity.
Qed.

(** Converting twice is converting once. *)
Lemma round64_idem z : round64 (round64 z) = round64 z.
Proof.
  destruct (Z.ltb_spec (Z.abs z) (2 ^ 53)) as [Hs|Hb].
  - by rewrite !(round64_small z Hs).
  - assert (53 ≤ Z.log2 (Z.abs z)) as Hlog by (apply Z.log2_le_pow2; lia).
    pose proof (Z.log2_spec (Z.abs z) ltac:(lia)) as [Hlo Hhi].
    remember (Z.log2 (Z.abs z) - 52) as k eqn:Hk.
    assert (0 < 2 ^ k) as Hpk by (apply Z.pow_pos_nonneg; lia).
    assert (2 ^ 52 ≤ Z.abs z / 2 ^ k < 2 ^ 53) as Hq.
    { split.
      - apply Z.div_le_lower_bound; [lia|].
        rewrite <- Z.pow_add_r by lia.
        by replace (k + 52) with (Z.log2 (Z.abs z)) by lia.
      - apply Z.div_lt_upper_bound; [lia|].
        rewrite <- Z.pow_add_r by lia.
        by replace (k + 53) with (Z.succ (Z.log2 (Z.abs z))) by lia. }
    assert (∃ m, 2 ^ 52 ≤ m ≤ 2 ^ 53 ∧ round64 z = Z.sgn z * (m * 2 ^ k))
      as (m & Hm & ->).
    { unfold round64.
      destruct (Z.ltb_spec (Z.abs z) (2 ^ 53)) as [?|_]; [lia|].
      rewrite <- Hk. eexists. split; [|reflexivity].
      destruct (_ || _); lia. }
    apply round64_scaled; [|lia|lia].
    destruct z; simpl in *; try lia; auto.
Qed.

Lemma fl_copy x : fl_add 0 (fl_mul 1 (round64 x)) = round64 x.
Proof.
  unfold fl_add, fl_mul. by rewrite Z.mul_1_l, Z.add_0_l, !round64_idem.
Qed.

End Rounding.

Example round64_ties_to_even :
  round64 (2 ^ 53 + 1) = (2 ^ 53)%Z ∧ round64 (2 ^ 53 + 3) = (2 ^ 53 + 4)%Z ∧
  round64 (- (2 ^ 53 + 1)) = (- 2 ^ 53)%Z ∧ round64 (2 ^ 64 - 1) = (2 ^ 64)%Z ∧
  round64 (2 ^ 53) = (2 ^ 53)%Z ∧ round64 (- 7) = (- 7)%Z.
Proof. by vm_compute. Qed.

Example matvec_errors :
  matvec (eye 2) [1; 2; 3]%Z = Raise ValueError ∧
  matvec (eye 2) [1; 2 ^ 64]%Z = Raise TypeError ∧
  matvec (eye 2) [2 ^ 53 + 1; - 3]%Z = Ok [2 ^ 53; - 3]%Z.
Proof. by vm_compute. Qed.

Lemma as_float64_exact p :
  forallb (λ x, castable x && exact64 x) p = true →
  forallb castable p = true ∧ round64 <$> p = p.
Proof.
  induction p as [|x p IH]; [done|]. cbn [forallb].
  rewrite !andb_true_iff. intros [[Hc Hx] Hp].
  destruct (IH Hp) as [Hcast Heq]. split; [done|].
  rewrite fmap_cons, Heq. f_equal. by apply Z.eqb_eq.
Qed.

(** *** The product with a packed vector *)

Lemma filter_row_pair_column n i j r :
  i ≤ j < n →
  filter (λ e, e.1 = r) (pair_column n (i, j)) =
  if decide (r = i * n + j ∨ r = j * n + i) then [(r, 1%Z)] else [].
Proof.
  intros Hij. unfold pair_column. simpl. case_bool_decide as Hd.
  - subst j. rewrite filter_cons, filter_nil. simpl.
    destruct (decide (i * n + i = r)) as [<-|Hr].
    + by rewrite decide_True by lia.
    + by rewrite decide_False by lia.
  - assert (i * n + j ≠ j * n + i) by nia.
    rewrite !filter_cons, filter_nil. simpl.
    destruct (decide (i * n + j = r)) as [<-|Hr1].
    + by rewrite decide_False, decide_True by lia.
    + destruct (decide (j * n + i = r)) as [<-|Hr2].
      * by rewrite decide_True by lia.
      * by rewrite decide_False by lia.
Qed.

Lemma bind_seq_nil {A} (f : nat → list A) m : ∀ s,
  (∀ c, s ≤ c < s + m → f c = []) → seq s m ≫= f = [].
Proof.
  induction m as [|m IH]; intros s Hf; [done|]. csimpl.
  rewrite Hf, IH by (try lia; intros; apply Hf; lia). done.
Qed.

Lemma bind_seq_single {A} (f : nat → list A) k : ∀ m s,
  s ≤ k < s + m → (∀ c, s ≤ c < s + m → c ≠ k → f c = []) →
  seq s m ≫= f = f k.
Proof.
  induction m as [|m IH]; intros s Hk Hf; [lia|]. csimpl.
  destruct (decide (s = k)) as [->|Hne].
  - rewrite bind_seq_nil; [by rewrite app_nil_r|].
    intros c ?. apply Hf; lia.
  - rewrite Hf, IH by (try done; try lia; intros; apply Hf; lia). done.
Qed.

(** Entry [c0 * n + r0] of the product receives one term: the coefficient
    1 times the entry of the pair (min r0 c0, max r0 c0). *)
Lemma row_terms_expansion n x r0 c0 :
  r0 < n → c0 < n →
  row_terms (expansion_matrix n) x (c0 * n + r0) =
  [fl_mul 1 (default 0%Z (x !! pair_index n (r0 `min` c0) (r0 `max` c0)))].
Proof.
  intros Hr Hc. unfold row_terms. cbn [expansion_matrix csc_shape csc_columns snd].
  set (i := r0 `min` c0). set (j := r0 `max` c0).
  assert (i ≤ j < n) as Hij by lia.
  pose proof (pair_index_lookup n i j Hij) as Hk.
  pose proof (tri_pairs_lookup _ _ _ _ Hk) as [_ Hlt].
  rewrite (bind_seq_single _ (pair_index n i j)); [|lia|].
  - rewrite list_lookup_fmap, Hk. simpl.
    rewrite filter_row_pair_column, decide_True by lia. done.
  - intros c _ Hne. rewrite list_lookup_fmap.
    destruct (tri_pairs n !! c) as [[i' j']|] eqn:Hc'; [|done]. simpl.
    pose proof (tri_pairs_lookup _ _ _ _ Hc') as [Hij' _].
    rewrite filter_row_pair_column by done.
    rewrite decide_False; [done|].
    intros Hrow. apply Hne. symmetry. apply pair_index_unique.
    rewrite Hc'. subst i j.
    destruct Hrow as [Hrow|Hrow].
    + apply flat_index_inj in Hrow as [-> ->]; [|lia..].
      do 2 f_equal; lia.
    + apply flat_index_inj in Hrow as [-> ->]; [|lia..].
      do 2 f_equal; lia.
Qed.

(** The product is the expansion of the converted vector. *)
Lemma matvec_expansion n p :
  length p = n * (n + 1) / 2 → forallb castable p = true →
  matvec (expansion_matrix n) p =
  Ok (flatten_F n n (sym_full n (round64 <$> p))).
Proof.
  intros Hp Hcast. unfold matvec, as_float64.
  cbn [expansion_matrix csc_shape fst snd].
  rewrite bool_decide_eq_true_2, Hcast by done. simpl. f_equal.
  apply (list_eq_same_length _ _ (n * n)).
  - by rewrite length_flatten_F.
  - by rewrite length_fmap, length_seq.
  - intros k x y Hk.
    assert (∃ r0 c0, r0 < n ∧ c0 < n ∧ k = c0 * n + r0)
      as (r0 & c0 & Hr0 & Hc0 & ->).
    { assert (0 < n) as Hn by nia.
      exists (k `mod` n), (k `div` n). split_and!.
      - apply Nat.mod_upper_bound. lia.
      - apply Nat.Div0.div_lt_upper_bound. lia.
      - pose proof (Nat.div_mod_eq k n). lia. }
    rewrite list_lookup_fmap, lookup_seq_lt, lookup_flatten_F by done.
    simpl. intros [= <-] [= <-].
    change (csc_shape _) with (csc_shape (expansion_matrix n)).
    change {| csc_columns := _; csc_shape := _ |} with (expansion_matrix n).
    rewrite row_terms_expansion by done. simpl. unfold sym_full.
    rewrite list_lookup_fmap.
    destruct (p !! _) as [z|]; simpl; [apply fl_copy|done].
Qed.

Lemma sym_full_pair n p k i j :
  length p = n * (n + 1) / 2 → tri_pairs n !! k = Some (i, j) →
  ∃ x, p !! k = Some x ∧ sym_full n p i j = x ∧ sym_full n p j i = x.
Proof.
  intros Hp Hk. pose proof (tri_pairs_lookup _ _ _ _ Hk) as [Hij Hlt].
  destruct (lookup_lt_is_Some_2 p k) as [x Hx]; [lia|].
  exists x. split; [done|]. unfold sym_full.
  replace (j `min` i) with i by lia. replace (j `max` i) with j by lia.
  replace (i `min` j) with i by lia. replace (i `max` j) with j by lia.
  by rewrite (pair_index_unique _ _ _ _ Hk), Hx.
Qed.

(** ** The expansion map: main properties *)




(** C8. For every n >= 0 the matrix built by [upper_tri_to_full n] has
    shape (n*n, n(n+1)/2); the column of a diagonal packed index stores
    exactly one entry and every other column exactly two, at distinct rows,
    every stored value is 1, and the stored rows are exactly the rows where
    the dense coefficient is not zero; n = 0 gives the empty (0,0) matrix
    and n = 1 the 1x1 identity. *)
Theorem upper_tri_to_full_structure (n : nat) :
  (∃ M, upper_tri_to_full n = Ok M ∧
     csc_shape M = (n * n, n * (n + 1) / 2) ∧
     length (csc_columns M) = n * (n + 1) / 2 ∧
     (∀ c, c < n * (n + 1) / 2 →
        ∃ i j col, tri_pairs n !! c = Some (i, j) ∧
          csc_columns M !! c = Some col ∧
          col_nnz M c = (if decide (i = j) then 1 else 2) ∧
          NoDup col.*1 ∧
          Forall (λ e, e.1 < n * n ∧ e.2 = 1%Z) col ∧
          (∀ r, csc_get M r c ≠ 0%Z ↔ r ∈ col.*1)) ∧
     (∀ r c, csc_get M r c = 0%Z ∨ csc_get M r c = 1%Z)) ∧
  upper_tri_to_full 0 = Ok {| csc_columns := []; csc_shape := (0, 0) |} ∧
  upper_tri_to_full 1 = Ok (eye 1).
Proof.
  split; [|by vm_compute].
  exists (expansion_matrix n). split_and!.
  - apply upper_tri_to_full_columns.
  - done.
  - simpl. by rewrite length_fmap, length_tri_pairs.
  - intros c Hc.
    destruct (lookup_lt_is_Some_2 (tri_pairs n) c) as [[i j] Hij];
      [by rewrite length_tri_pairs|].
    pose proof (tri_pairs_lookup _ _ _ _ Hij) as [Hle _].
    exists i, j, (pair_column n (i, j)).
    unfold col_nnz. simpl. rewrite list_lookup_fmap, Hij. simpl.
    split_and!; try done; unfold pair_column; simpl.
    + by case_bool_decide; case_decide.
    + case_bool_decide; simpl.
      * apply NoDup_singleton.
      * apply NoDup_cons. split; [|apply NoDup_singleton].
        rewrite list_elem_of_singleton. nia.
    + case_bool_decide; repeat constructor; simpl; nia.
    + intros r. rewrite (csc_get_pair n c i j) by done.
      case_bool_decide as Hd; simpl.
      * subst j. rewrite list_elem_of_singleton.
        case_decide; split; intros; try done; lia.
      * rewrite elem_of_cons, list_elem_of_singleton.
        case_decide; split; intros; try done; lia.
  - intros r c. destruct (tri_pairs n !! c) as [[i j]|] eqn:Hc.
    + pose proof (tri_pairs_lookup _ _ _ _ Hc) as [Hle _].
      rewrite (csc_get_pair n c i j) by done. case_decide; auto.
    + left. unfold csc_get. simpl. by rewrite list_lookup_fmap, Hc.
Qed.

Lemma upper_tri_to_full_structure_witness :
  ∃ M, upper_tri_to_full 3 = Ok M ∧ col_nnz M 0 = 1 ∧ col_nnz M 1 = 2.
Proof.
  destruct (upper_tri_to_full_structure 3) as [(M & HM & _ & _ & Hcol & _) _].
  exists M. split; [done|]. split.
  - destruct (Hcol 0) as (i & j & col & Hij & _ & Hn & _); [vm_compute; lia|].
    injection Hij as <- <-. exact Hn.
  - destruct (Hcol 1) as (i & j & col & Hij & _ & Hn & _); [vm_compute; lia|].
    injection Hij as <- <-. exact Hn.
Defined.

(** ** The diagonal of the expanded matrix *)





Lemma reshape_flatten_F n a r c :
  r < n → c < n → reshape_F (flatten_F n n a) n r c = a r c.
Proof. intros Hr Hc. unfold reshape_F. by rewrite lookup_flatten_F. Qed.





(** ** [Variable]: well constructed variables *)

Lemma is_square_inv shape : is_true (Var.is_square shape) → ∃ n, shape = [n; n].
Proof.
  destruct shape as [|r [|c [|? ?]]]; simpl; try done.
  intros Hrc%bool_decide_eq_true. subst. by exists c.
Qed.

Lemma well_constructed_inv self :
  Var.well_constructed self = true →
  ∃ a b c d e,
    Var.attributes self !! "nonneg" = Some a ∧
    Var.attributes self !! "nonpos" = Some b ∧
    Var.attributes self !! "symmetric" = Some c ∧
    Var.attributes self !! "PSD" = Some d ∧
    Var.attributes self !! "NSD" = Some e ∧
    (c || d || e = true → ∃ n, Var.shape self = [n; n]).
Proof.
  unfold Var.well_constructed, Var.flag. simpl.
  rewrite !andb_true_iff, !bool_decide_eq_true.
  intros [[([a ->] & [b ->] & [c ->] & [d ->] & [e ->] & _) _] Hsq].
  exists a, b, c, d, e. split_and!; try done. simpl in Hsq.
  intros Hs. rewrite Hs in Hsq. by apply is_square_inv.
Qed.

Lemma init_well_constructed prefix shape name var_id kwargs counter v counter' :
  Var.init prefix shape name var_id kwargs counter = (Ok v, counter') →
  Var.well_constructed v = true.
Proof.
  unfold Var.init. intros Hinit.
  destruct (Var.leaf_init shape kwargs) as [[shape' attrs]|e] eqn:Hleaf;
    [|by destruct var_id].
  assert (Var.shape v = shape' ∧ Var.attributes v = attrs) as [Hs Ha].
  { destruct var_id; simpl in Hinit; by simplify_eq/=. }
  clear Hinit. revert Hleaf. unfold Var.leaf_init.
  destruct (bool_decide (dom kwargs ⊆ dom Var.default_attributes)) eqn:Hdom;
    [|done].
  destruct (bool_decide (length shape ≤ 2)) eqn:Hlen; [|done]. simpl.
  destruct (_ && negb (Var.is_square shape)) eqn:Hsq; [done|].
  intros [= <- <-]. unfold Var.well_constructed. rewrite Hs, Ha, Hlen.
  rewrite andb_true_r, andb_true_iff. split.
  - simpl. rewrite !andb_true_iff. split_and!; try done;
      apply bool_decide_eq_true, lookup_union_is_Some; right;
      by exists false.
  - destruct (_ || _); [|done]. simpl in Hsq. by apply negb_false_iff in Hsq.
Qed.

(** ** [canonicalize] *)

(** The affine term of a well constructed variable. *)
Lemma canonical_obj_ok self :
  Var.well_constructed self = true →
  Var.canonical_obj self =
  Ok (if Var.flag (Var.attributes self) "symmetric"
         || Var.flag (Var.attributes self) "PSD"
         || Var.flag (Var.attributes self) "NSD"
      then
        let n := default 0 (Var.shape self !! 0) in
        reshape
          (mul_expr
             (create_const (expansion_matrix n) [n * n; n * (n + 1) / 2] true)
             (create_var [n * (n + 1) / 2; 1] (Var.id self))
             [n * n; 1])
          [n; n]
      else create_var (Var.shape self) (Var.id self)).
Proof.
  intros (a & b & c & d & e & Ha & Hb & Hc & Hd & He & Hsq)%well_constructed_inv.
  unfold Var.canonical_obj, Var.is_symmetric, Var.flag, dict_get.
  rewrite Hc, Hd, He. simpl.
  destruct (c || d || e); [|done].
  destruct Hsq as [n Hn]; [done|]. rewrite Hn. simpl.
  by rewrite upper_tri_to_full_columns.
Qed.

(** The constraint list of a well constructed variable. *)
Lemma canonical_constr_ok self obj :
  Var.well_constructed self = true →
  Var.canonical_constr self obj =
  Ok (if Var.flag (Var.attributes self) "nonneg" then [create_geq obj]
      else if Var.flag (Var.attributes self) "nonpos" then [create_leq obj]
      else if Var.flag (Var.attributes self) "PSD" then [PSD obj]
      else if Var.flag (Var.attributes self) "NSD" then [PSD (neg obj)]
      else []).
Proof.
  intros (a & b & c & d & e & Ha & Hb & Hc & Hd & He & Hsq)%well_constructed_inv.
  unfold Var.canonical_constr, Var.is_nonneg, Var.is_nonpos, Var.flag, dict_get.
  rewrite Ha, Hb, Hd, He. simpl. by destruct a, b, d, e.
Qed.

(** C2. For every well constructed variable [canonicalize] returns at most
    one constraint, chosen in the order nonneg, nonpos, PSD, NSD: a
    greater-or-equal constraint on the affine term, else a less-or-equal
    constraint on it, else a semidefinite constraint on it, else a
    semidefinite constraint on its negation, else none. *)
Theorem canonicalize_constraints (self : Var.t) :
  Var.well_constructed self = true →
  ∃ obj constr,
    Var.canonicalize self = (Ok (obj, constr), self) ∧
    length constr ≤ 1 ∧
    constr =
      (if Var.flag (Var.attributes self) "nonneg" then [create_geq obj]
       else if Var.flag (Var.attributes self) "nonpos" then [create_leq obj]
       else if Var.flag (Var.attributes self) "PSD" then [PSD obj]
       else if Var.flag (Var.attributes self) "NSD" then [PSD (neg obj)]
       else []).
Proof.
  intros Hwc. unfold Var.canonicalize, Var.lift.
  rewrite canonical_obj_ok by done. simpl.
  rewrite canonical_constr_ok by done. simpl.
  eexists _, _. split; [done|]. split; [|done].
  repeat case_match; simpl; lia.
Qed.

Lemma canonicalize_constraints_witness :
  ∃ obj constr,
    Var.canonicalize (Var.sample [2; 2] {["NSD" := true]}) =
      (Ok (obj, constr), Var.sample [2; 2] {["NSD" := true]}) ∧
    constr = [PSD (neg obj)].
Proof.
  destruct (canonicalize_constraints (Var.sample [2; 2] {["NSD" := true]}))
    as (obj & constr & Hc & _ & Hconstr); [by vm_compute|].
  exists obj, constr. split; [exact Hc|exact Hconstr].
Defined.

(** C3. For every well constructed variable: when symmetric is set
    (directly or through PSD or NSD) and the shape is (n, n), the affine
    term of [canonicalize] is the reshape to (n, n) of the product of the
    expansion map for n with a packed leaf of shape (n(n+1)/2, 1) that
    carries the id of the variable; otherwise it is a plain leaf over the
    shape with that id; a variable of shape (2, 3) without attributes
    canonicalizes to a leaf of shape (2, 3) and no constraint. *)
Theorem canonicalize_affine_term (self : Var.t) :
  Var.well_constructed self = true →
  (∀ n,
     Var.flag (Var.attributes self) "symmetric"
     || Var.flag (Var.attributes self) "PSD"
     || Var.flag (Var.attributes self) "NSD" = true →
     Var.shape self = [n; n] →
     ∃ M constr,
       upper_tri_to_full n = Ok M ∧
       Var.canonicalize self =
         (Ok (reshape
                (mul_expr (create_const M [n * n; n * (n + 1) / 2] true)
                          (create_var [n * (n + 1) / 2; 1] (Var.id self))
                          [n * n; 1])
                [n; n], constr), self)) ∧
  (Var.flag (Var.attributes self) "symmetric"
   || Var.flag (Var.attributes self) "PSD"
   || Var.flag (Var.attributes self) "NSD" = false →
   ∃ constr,
     Var.canonicalize self =
       (Ok (create_var (Var.shape self) (Var.id self), constr), self)) ∧
  (Var.shape self = [2; 3] →
   Forall (λ k, Var.flag (Var.attributes self) k = false)
          Var.attribute_names →
   Var.canonicalize self = (Ok (create_var [2; 3] (Var.id self), []), self)).
Proof.
  intros Hwc. unfold Var.canonicalize, Var.lift.
  rewrite canonical_obj_ok by done. simpl. split_and!.
  - intros n -> Hn. rewrite Hn. simpl.
    rewrite canonical_constr_ok by done. simpl.
    eexists _, _. split; [apply upper_tri_to_full_columns|done].
  - intros ->. rewrite canonical_constr_ok by done. simpl. by eexists.
  - intros Hs Hflags. rewrite canonical_constr_ok by done.
    unfold Var.attribute_names in Hflags.
    rewrite !Forall_cons in Hflags.
    destruct Hflags as (-> & -> & -> & -> & -> & _). simpl. by rewrite Hs.
Qed.

Lemma canonicalize_affine_term_witness :
  ∃ constr,
    Var.canonicalize (Var.sample [2; 2] {["symmetric" := true]}) =
      (Ok (reshape
             (mul_expr (create_const (expansion_matrix 2) [4; 3] true)
                       (create_var [3; 1] 0) [4; 1])
             [2; 2], constr),
       Var.sample [2; 2] {["symmetric" := true]}).
Proof.
  destruct (canonicalize_affine_term
              (Var.sample [2; 2] {["symmetric" := true]}))
    as (Hsym & _ & _); [by vm_compute|].
  destruct (Hsym 2) as (M & constr & HM & Hc); [by vm_compute|done|].
  exists constr. rewrite upper_tri_to_full_columns in HM.
  injection HM as <-. exact Hc.
Defined.

(** ** [grad] *)

Lemma csc_get_eye k i j :
  j < k → csc_get (eye k) i j = if decide (i = j) then 1%Z else 0%Z.
Proof.
  intros Hj. unfold csc_get, eye. simpl.
  rewrite list_lookup_fmap, lookup_seq_lt by done. simpl.
  rewrite filter_cons, filter_nil. simpl.
  destruct (decide (j = i)) as [->|Hne].
  - by rewrite decide_True.
  - by rewrite decide_False by done.
Qed.

(** C9. For every variable whose shape is the 2-tuple (r, c), [grad]
    returns a mapping with exactly one key, the variable itself, and the
    value of that key is the sparse identity of size r*c by r*c. *)
Theorem grad_identity (self : Var.t) (r c : nat) :
  Var.shape self = [r; c] →
  Var.grad self = (Ok [(self, eye (r * c))], self) ∧
  csc_shape (eye (r * c)) = (r * c, r * c) ∧
  length (csc_columns (eye (r * c))) = r * c ∧
  (∀ i j, i < r * c → j < r * c →
     csc_get (eye (r * c)) i j = if decide (i = j) then 1%Z else 0%Z).
Proof.
  intros Hs. split_and!.
  - unfold Var.grad, Var.read, Var.lift, tuple_get. simpl.
    unfold mbind, Var.method_bind. simpl. by rewrite Hs.
  - done.
  - simpl. by rewrite length_fmap, length_seq.
  - intros i j _ Hj. by apply csc_get_eye.
Qed.

Lemma grad_identity_witness :
  Var.grad (Var.sample [2; 3] ∅) =
  (Ok [(Var.sample [2; 3] ∅, eye 6)], Var.sample [2; 3] ∅).
Proof. apply (grad_identity (Var.sample [2; 3] ∅) 2 3). reflexivity. Defined.

(** C5. [canonicalize] returns for every well constructed variable, but
    [grad] indexes [shape[0]] and [shape[1]]: on the variable that the
    constructor builds from its default shape [()], and on one of shape
    (4,), it raises [IndexError]. *)
Theorem grad_raises_below_two_dimensions :
  ∃ scalar vector,
    Var.init "var" [] None None ∅ 0 = (Ok scalar, 1) ∧
    Var.init "var" [4] None None ∅ 0 = (Ok vector, 1) ∧
    Var.well_constructed scalar = true ∧
    Var.well_constructed vector = true ∧
    Var.canonicalize scalar = (Ok (create_var [] 0, []), scalar) ∧
    Var.canonicalize vector = (Ok (create_var [4] 0, []), vector) ∧
    Var.grad scalar = (Raise IndexError, scalar) ∧
    Var.grad vector = (Raise IndexError, vector).
Proof. eexists _, _. split_and!; by vm_compute. Qed.

(** [grad] returns exactly on the shapes of two or more dimensions. *)
Lemma grad_returns_iff self :
  returns (Var.grad self).1 ↔ 2 ≤ length (Var.shape self).
Proof.
  unfold Var.grad, Var.read, Var.lift, tuple_get, returns.
  unfold mbind, Var.method_bind. simpl.
  destruct (Var.shape self) as [|r [|c rest]]; simpl.
  - split; [by intros [? ?]|lia].
  - split; [by intros [? ?]|lia].
  - split; [lia|by eexists].
Qed.

(** [canonicalize] returns on every well constructed variable. *)
Lemma canonicalize_returns self :
  Var.well_constructed self = true → returns (Var.canonicalize self).1.
Proof.
  intros Hwc. unfold Var.canonicalize, Var.lift, returns. simpl.
  rewrite canonical_obj_ok by done. simpl.
  rewrite canonical_constr_ok by done. simpl. by eexists.
Qed.

(** ** The value slot *)

(** C6. For every variable, whatever its attributes, and every value [v],
    [save_value v] stores [v] unchanged as the primal value, with no
    validation and no expansion, and the value getter then returns that
    [v]. *)
Theorem save_value_stores (self : Var.t) (v : pyvalue) :
  (Var.save_value v self).1 = Ok () ∧
  Var.primal_value (Var.save_value v self).2 = v ∧
  (Var.value (Var.save_value v self).2).1 = Ok v ∧
  (_ ← Var.save_value v; Var.value) self =
    (Ok v, (Var.save_value v self).2).
Proof. by split_and!. Qed.

(** C7. When the validation that the setter delegates to rejects the value,
    the setter raises that error and the variable is left as it was, its
    primal value included; when the validation accepts, the validated value
    is stored. *)
Theorem set_value_validates
    (_validate_value : Var.t → pyvalue → result pyvalue)
    (self : Var.t) (val : pyvalue) :
  (∀ e, _validate_value self val = Raise e →
        Var.set_value _validate_value val self = (Raise e, self)) ∧
  (∀ val', _validate_value self val = Ok val' →
        (Var.set_value _validate_value val self).1 = Ok () ∧
        Var.primal_value (Var.set_value _validate_value val self).2 = val').
Proof.
  unfold Var.set_value, Var.lift, mbind, Var.method_bind.
  split.
  - by intros e ->.
  - by intros val' ->.
Qed.

Lemma set_value_validates_witness :
  Var.set_value Var.validate_shape
    (Some {| nd_shape := [3; 2]; nd_data := [1; 2; 3; 4; 5; 6]%Z |})
    (Var.sample [2; 3] ∅) =
  (Raise ValueError, Var.sample [2; 3] ∅) ∧
  Var.primal_value (Var.sample [2; 3] ∅) = None ∧
  Var.primal_value
    (Var.set_value Var.validate_shape
       (Some {| nd_shape := [2; 3]; nd_data := [1; 2; 3; 4; 5; 6]%Z |})
       (Var.sample [2; 3] ∅)).2 =
  Some {| nd_shape := [2; 3]; nd_data := [1; 2; 3; 4; 5; 6]%Z |}.
Proof.
  split; [|split; [reflexivity|]].
  - apply (set_value_validates Var.validate_shape). reflexivity.
  - apply (set_value_validates Var.validate_shape). reflexivity.
Defined.

(** ** Frame *)

(** C10. [canonicalize], [grad], [name], the value getter and [variables]
    leave every field of the variable as it was; [save_value] and the value
    setter change at most the primal value. *)
Theorem reads_leave_variable_unchanged
    (_validate_value : Var.t → pyvalue → result pyvalue)
    (self : Var.t) (v : pyvalue) :
  (Var.canonicalize self).2 = self ∧
  (Var.grad self).2 = self ∧
  (Var.name self).2 = self ∧
  (Var.value self).2 = self ∧
  (Var.variables self).2 = self ∧
  (∀ self', self' = (Var.save_value v self).2 ∨
            self' = (Var.set_value _validate_value v self).2 →
     Var.id self' = Var.id self ∧
     Var._name self' = Var._name self ∧
     Var.shape self' = Var.shape self ∧
     Var.attributes self' = Var.attributes self).
Proof.
  split_and!; try done.
  - unfold Var.grad, Var.read, Var.lift, tuple_get, mbind, Var.method_bind.
    simpl. by destruct (Var.shape self) as [|r [|c rest]].
  - intros self' [-> | ->]; [done|].
    unfold Var.set_value, Var.lift, mbind, Var.method_bind.
    by destruct (_validate_value self v).
Qed.

Lemma reads_leave_variable_unchanged_witness :
  Var.shape (Var.save_value (Some {| nd_shape := []; nd_data := [5%Z] |})
               (Var.sample [2; 3] ∅)).2 = [2; 3].
Proof.
  apply (reads_leave_variable_unchanged Var.validate_shape
           (Var.sample [2; 3] ∅)
           (Some {| nd_shape := []; nd_data := [5%Z] |})).
  left. reflexivity.
Defined.

(** ** Further properties of [upper_tri_to_full] *)

Lemma length_emit_offdiag n i m : ∀ k s,
  i < s → length (emit_all n k ((λ j, (i, j)) <$> seq s m)) = 2 * m.
Proof.
  induction m as [|m IH]; intros k s Hs; [done|].
  csimpl. rewrite length_app, IH by lia. unfold emit. simpl.
  rewrite bool_decide_eq_true_2 by lia. simpl. lia.
Qed.

Lemma length_emit_rows n m : ∀ k i0,
  length (emit_all n k (i ← seq i0 m; (λ j, (i, j)) <$> range i (i0 + m)))
  = m * m.
Proof.
  induction m as [|m IH]; intros k i0; [done|].
  change (seq i0 (S m)) with (i0 :: seq (S i0) m).
  rewrite bind_cons, emit_all_app, length_app. unfold range at 1.
  replace (i0 + S m - i0) with (S m) by lia.
  change (seq i0 (S m)) with (i0 :: seq (S i0) m).
  rewrite fmap_cons. cbn [emit_all]. rewrite length_app.
  rewrite length_emit_offdiag by lia.
  replace (i0 + S m) with (S i0 + m) by lia. rewrite IH.
  unfold emit. simpl. rewrite bool_decide_eq_false_2 by lia. simpl. lia.
Qed.

Lemma length_emit_tri_pairs n : length (emit_all n 0 (tri_pairs n)) = n * n.
Proof.
  pose proof (length_emit_rows n n 0 0) as H. simpl in H.
  unfold tri_pairs. change (range 0 n) with (seq 0 (n - 0)).
  by replace (n - 0) with n by lia.
Qed.

Lemma emit_all_vals n ps : ∀ k, Forall (λ t, 1%Z = t_val t) (emit_all n k ps).
Proof.
  induction ps as [|ij ps IH]; intros k; cbn [emit_all]; [constructor|].
  apply Forall_app. split; [|apply IH].
  unfold emit. case_bool_decide; repeat constructor.
Qed.

(** X1. When the loops end, the three arrays hold n*n coefficients, all of
    them 1, and [count] is the number of columns. *)
Theorem fill_totals (n : nat) :
  length (val_arr (fill n)) = n * n ∧
  length (row_arr (fill n)) = n * n ∧
  length (col_arr (fill n)) = n * n ∧
  val_arr (fill n) = replicate (n * n) 1%Z ∧
  count (fill n) = n * (n + 1) / 2.
Proof.
  destruct (fill_holds n) as (Hv & Hr & Hc & Hk).
  rewrite Hv, Hr, Hc, Hk, !length_fmap, length_emit_tri_pairs, length_tri_pairs.
  split_and!; try done.
  rewrite <- length_emit_tri_pairs, <- (length_fmap t_val).
  symmetry. apply replicate_as_Forall_2; [done|].
  apply Forall_fmap, emit_all_vals.
Qed.

Lemma emit_all_elem n ps : ∀ k k' ij t,
  ps !! k' = Some ij → t ∈ emit n (k + k') ij → t ∈ emit_all n k ps.
Proof.
  induction ps as [|ij' ps IH]; intros k k' ij t Hl Ht; [done|].
  cbn [emit_all]. apply elem_of_app. destruct k' as [|k'].
  - injection Hl as ->. left. by rewrite Nat.add_0_r in Ht.
  - right. apply (IH (S k) k' ij); [done|].
    by replace (S k + k') with (k + S k') by lia.
Qed.

Lemma row_recorded n r :
  r < n * n → r ∈ t_row <$> emit_all n 0 (tri_pairs n).
Proof.
  intros Hr.
  assert (∃ r0 c0, r0 < n ∧ c0 < n ∧ r = c0 * n + r0)
    as (r0 & c0 & Hr0 & Hc0 & ->).
  { assert (0 < n) as Hn by nia.
    exists (r `mod` n), (r `div` n). split_and!.
    - apply Nat.mod_upper_bound. lia.
    - apply Nat.Div0.div_lt_upper_bound. lia.
    - pose proof (Nat.div_mod_eq r n). lia. }
  set (i := r0 `min` c0). set (j := r0 `max` c0).
  assert (i ≤ j < n) as Hij by lia.
  pose proof (pair_index_lookup n i j Hij) as Hk.
  apply list_elem_of_fmap.
  destruct (decide (r0 ≤ c0)) as [Hle|Hgt].
  - exists (c0 * n + r0, pair_index n i j, 1%Z). split; [done|].
    apply (emit_all_elem n _ 0 (pair_index n i j) (i, j)); [done|].
    unfold emit. simpl. replace i with r0 by lia. replace j with c0 by lia.
    by left.
  - exists (c0 * n + r0, pair_index n i j, 1%Z). split; [done|].
    apply (emit_all_elem n _ 0 (pair_index n i j) (i, j)); [done|].
    unfold emit. simpl. replace i with c0 by lia. replace j with r0 by lia.
    rewrite bool_decide_eq_true_2 by lia. right. by left.
Qed.

(** X2. [row_arr] is a rearrangement of 0, ..., n*n-1: every position of the
    full matrix is written exactly once. *)
Theorem row_arr_permutation (n : nat) : row_arr (fill n) ≡ₚ seq 0 (n * n).
Proof.
  destruct (fill_holds n) as (_ & Hr & _). rewrite Hr. symmetry.
  apply submseteq_length_Permutation.
  - apply NoDup_submseteq; [apply NoDup_seq|].
    intros r Hr'%elem_of_seq. apply row_recorded. lia.
  - by rewrite length_fmap, length_emit_tri_pairs, length_seq.
Qed.

Lemma expansion_matrix_row n r0 c0 c :
  r0 < n → c0 < n →
  csc_get (expansion_matrix n) (c0 * n + r0) c =
  if decide (c = pair_index n (r0 `min` c0) (r0 `max` c0)) then 1%Z else 0%Z.
Proof.
  intros Hr Hc.
  set (i := r0 `min` c0). set (j := r0 `max` c0).
  assert (i ≤ j < n) as Hij by lia.
  pose proof (pair_index_lookup n i j Hij) as Hk.
  destruct (decide (c = pair_index n i j)) as [->|Hne].
  - rewrite (csc_get_pair n _ i j) by done. rewrite decide_True; [done|lia].
  - destruct (tri_pairs n !! c) as [[i' j']|] eqn:Hc'.
    + pose proof (tri_pairs_lookup _ _ _ _ Hc') as [Hij' _].
      rewrite (csc_get_pair n _ i' j') by done.
      rewrite decide_False; [done|]. intros Hrow.
      apply Hne. symmetry. apply pair_index_unique.
      rewrite Hc'. subst i j.
      destruct Hrow as [Hrow|Hrow].
      * apply flat_index_inj in Hrow as [-> ->]; [|lia..].
        do 2 f_equal; lia.
      * apply flat_index_inj in Hrow as [-> ->]; [|lia..].
        do 2 f_equal; lia.
    + unfold csc_get, expansion_matrix. simpl.
      by rewrite list_lookup_fmap, Hc'.
Qed.

(** X3. Every row of the matrix has exactly one coefficient that is not zero,
    and it is 1: every entry of the full matrix is a copy of one packed
    entry. *)
Theorem upper_tri_to_full_one_per_row (n r : nat) :
  r < n * n →
  ∃ M k, upper_tri_to_full n = Ok M ∧ k < n * (n + 1) / 2 ∧
         ∀ c, csc_get M r c = if decide (c = k) then 1%Z else 0%Z.
Proof.
  intros Hr.
  assert (∃ r0 c0, r0 < n ∧ c0 < n ∧ r = c0 * n + r0)
    as (r0 & c0 & Hr0 & Hc0 & ->).
  { assert (0 < n) as Hn by nia.
    exists (r `mod` n), (r `div` n). split_and!.
    - apply Nat.mod_upper_bound. lia.
    - apply Nat.Div0.div_lt_upper_bound. lia.
    - pose proof (Nat.div_mod_eq r n). lia. }
  exists (expansion_matrix n), (pair_index n (r0 `min` c0) (r0 `max` c0)).
  split_and!.
  - apply upper_tri_to_full_columns.
  - eapply tri_pairs_lookup, pair_index_lookup. lia.
  - intros c. by apply expansion_matrix_row.
Qed.

Lemma upper_tri_to_full_one_per_row_witness :
  ∃ M k, upper_tri_to_full 3 = Ok M ∧ k < 6 ∧
         ∀ c, csc_get M 7 c = if decide (c = k) then 1%Z else 0%Z.
Proof. apply (upper_tri_to_full_one_per_row 3 7). vm_compute. lia. Defined.

Lemma pack_upper_sym_full n p :
  length p = n * (n + 1) / 2 →
  pack_upper n (reshape_F (flatten_F n n (sym_full n p)) n) = p.
Proof.
  intros Hp. unfold pack_upper.
  apply (list_eq_same_length _ _ (n * (n + 1) / 2)); [done| |].
  - by rewrite length_fmap, length_tri_pairs.
  - intros k x y Hk. rewrite list_lookup_fmap.
    destruct (tri_pairs n !! k) as [[i j]|] eqn:Hij; [|done]. simpl.
    pose proof (tri_pairs_lookup _ _ _ _ Hij) as [Hle _].
    rewrite reshape_flatten_F by lia.
    destruct (sym_full_pair n p k i j Hp Hij) as (z & Hz & -> & _).
    rewrite Hz. by intros [= <-] [= <-].
Qed.

(** X4. For packed vectors whose entries float64 holds exactly (the
    integers of a NumPy integer array): reading the upper triangle of the
    expanded matrix back, in the order of the enumeration, returns the
    packed vector; so two such vectors with the same expansion are
    equal. *)
Theorem upper_tri_to_full_round_trip (n : nat) (p : list Z) :
  length p = n * (n + 1) / 2 →
  forallb (λ x, castable x && exact64 x) p = true →
  (∃ y, (m ← upper_tri_to_full n; matvec m p) = Ok y ∧
        pack_upper n (reshape_F y n) = p) ∧
  (∀ q, length q = n * (n + 1) / 2 →
        forallb (λ x, castable x && exact64 x) q = true →
        (m ← upper_tri_to_full n; matvec m q) =
        (m ← upper_tri_to_full n; matvec m p) → q = p).
Proof.
  intros Hp [Hcast Hexact]%as_float64_exact. split.
  - exists (flatten_F n n (sym_full n p)). split.
    + rewrite upper_tri_to_full_columns. simpl.
      by rewrite matvec_expansion, Hexact by done.
    + by apply pack_upper_sym_full.
  - intros q Hq [Hcastq Hexactq]%as_float64_exact.
    rewrite upper_tri_to_full_columns. simpl.
    rewrite !matvec_expansion, Hexact, Hexactq by done. intros [= Heq].
    rewrite <- (pack_upper_sym_full n q), <- (pack_upper_sym_full n p) by done.
    by rewrite Heq.
Qed.

Lemma upper_tri_to_full_round_trip_witness :
  ∃ y, (m ← upper_tri_to_full 2; matvec m [7; 8; 9]%Z) = Ok y ∧
       pack_upper 2 (reshape_F y 2) = [7; 8; 9]%Z.
Proof.
  apply (upper_tri_to_full_round_trip 2 [7; 8; 9]%Z); reflexivity.
Defined.

Lemma length_rows_below n i :
  i ≤ n →
  2 * length (i' ← seq 0 i; (λ j, (i', j)) <$> range i' n) + i * i
  = (2 * n + 1) * i.
Proof.
  induction i as [|i IH]; intros Hi; [done|].
  specialize (IH ltac:(lia)).
  set (f := λ i', (λ j, (i', j)) <$> range i' n) in *.
  assert (length ([0 + i] ≫= f) = n - i) as Hrow.
  { csimpl. rewrite length_app. unfold f, range.
    rewrite length_fmap, length_seq. simpl. lia. }
  rewrite seq_S, bind_app, length_app, Hrow.
  generalize dependent (length (seq 0 i ≫= f)). intros len IH. nia.
Qed.

Lemma tri_pairs_closed_form n i j :
  i ≤ j < n →
  ∃ k, 2 * k + i * i = (2 * n + 1) * i + 2 * (j - i) ∧
       tri_pairs n !! k = Some (i, j).
Proof.
  intros Hij.
  exists (length (i' ← seq 0 i; (λ j, (i', j)) <$> range i' n) + (j - i)).
  split.
  - pose proof (length_rows_below n i ltac:(lia)). lia.
  - unfold tri_pairs. change (range 0 n) with (seq 0 (n - 0)).
    replace (n - 0) with (i + S (n - S i)) by lia.
    rewrite seq_app, bind_app. rewrite lookup_app_r by lia.
    replace (length _ + (j - i) - length _) with (j - i) by lia.
    simpl. rewrite lookup_app_l.
    + rewrite list_lookup_fmap. unfold range. rewrite lookup_seq_lt by lia.
      simpl. do 2 f_equal. lia.
    + rewrite length_fmap. unfold range. rewrite length_seq. lia.
Qed.

(** X5. The packed position of the pair (i, j), i <= j < n, is
    k = i*n - i*(i-1)/2 + (j - i), written without division as
    2k + i*i = (2n+1)*i + 2(j-i): column k of the matrix has its
    coefficient 1 in rows j*n+i and i*n+j. *)
Theorem upper_tri_to_full_column_of_pair (n i j : nat) :
  i ≤ j < n →
  ∃ M k, upper_tri_to_full n = Ok M ∧
         2 * k + i * i = (2 * n + 1) * i + 2 * (j - i) ∧
         csc_get M (j * n + i) k = 1%Z ∧ csc_get M (i * n + j) k = 1%Z.
Proof.
  intros Hij. destruct (tri_pairs_closed_form n i j Hij) as (k & Hk & Hl).
  exists (expansion_matrix n), k. split_and!; try done.
  - apply upper_tri_to_full_columns.
  - rewrite (csc_get_pair n k i j) by done. by rewrite decide_True by lia.
  - rewrite (csc_get_pair n k i j) by done. by rewrite decide_True by lia.
Qed.

Lemma upper_tri_to_full_column_of_pair_witness :
  ∃ M k, upper_tri_to_full 3 = Ok M ∧
         2 * k + 1 * 1 = (2 * 3 + 1) * 1 + 2 * (2 - 1) ∧
         csc_get M (2 * 3 + 1) k = 1%Z ∧ csc_get M (1 * 3 + 2) k = 1%Z.
Proof. apply (upper_tri_to_full_column_of_pair 3 1 2). lia. Defined.

(** ** Further properties of [Variable] *)

(** X6. [grad] raises [IndexError], and leaves the variable as it was, when the
    shape has fewer than two dimensions; otherwise it uses the first two
    dimensions only. *)
Theorem grad_by_dimensions (self : Var.t) :
  (length (Var.shape self) < 2 → Var.grad self = (Raise IndexError, self)) ∧
  (∀ r c rest, Var.shape self = r :: c :: rest →
     Var.grad self = (Ok [(self, eye (r * c))], self)).
Proof.
  unfold Var.grad, Var.read, Var.lift, tuple_get, mbind, Var.method_bind.
  simpl. split.
  - destruct (Var.shape self) as [|r [|c rest]]; simpl; try done. lia.
  - by intros r c rest ->.
Qed.

Lemma grad_by_dimensions_witness :
  Var.grad (Var.sample [5] ∅) = (Raise IndexError, Var.sample [5] ∅) ∧
  Var.grad (Var.sample [2; 3] ∅) =
    (Ok [(Var.sample [2; 3] ∅, eye 6)], Var.sample [2; 3] ∅).
Proof.
  split.
  - apply (proj1 (grad_by_dimensions (Var.sample [5] ∅))). simpl. lia.
  - apply (proj2 (grad_by_dimensions (Var.sample [2; 3] ∅)) 2 3 []).
    reflexivity.
Defined.

(** ** The constructor *)

(** X8. With an explicit [var_id] the constructor keeps it and does not touch
    the id generator; the name is the given one or the prefix followed by
    the decimal id; a new variable has no value. *)
Theorem init_explicit_id (prefix : string) (shape : list nat)
    (name : option string) (i : nat) (kwargs : gmap string bool)
    (counter : nat) :
  (Var.init prefix shape name (Some i) kwargs counter).2 = counter ∧
  ∀ v, (Var.init prefix shape name (Some i) kwargs counter).1 = Ok v →
       Var.id v = i ∧
       (Var.name v).1 = Ok (default (prefix +:+ pretty i) name) ∧
       (Var.value v).1 = Ok None.
Proof.
  unfold Var.init. simpl.
  destruct (Var.leaf_init shape kwargs) as [[shape' attrs]|e]; simpl.
  - split; [done|]. intros v [= <-]. simpl. by destruct name.
  - split; [done|]. by intros v.
Qed.

Lemma init_explicit_id_witness :
  ∃ v, (Var.init "var" [2; 2] None (Some 5) {["PSD" := true]} 9).1 = Ok v ∧
       Var.id v = 5 ∧ (Var.name v).1 = Ok "var5" ∧ (Var.value v).1 = Ok None.
Proof.
  eexists. split; [by vm_compute|].
  apply (init_explicit_id "var" [2; 2] None 5 {["PSD" := true]} 9).
  by vm_compute.
Defined.

Lemma init_default_name prefix shape var_id kwargs counter v counter' :
  Var.init prefix shape None var_id kwargs counter = (Ok v, counter') →
  Var._name v = prefix +:+ pretty (Var.id v).
Proof.
  unfold Var.init.
  destruct var_id; simpl;
    destruct (Var.leaf_init shape kwargs) as [[shape' attrs]|e]; simpl;
    by intros [= <- <-].
Qed.

(** X9. Default names tell variables apart: two variables constructed without
    a name have the same name only if they have the same id. *)
Theorem init_default_names_distinct (prefix : string)
    (shape1 shape2 : list nat) (var_id1 var_id2 : option nat)
    (kwargs1 kwargs2 : gmap string bool) (counter1 counter2 : nat)
    (v1 v2 : Var.t) (c1 c2 : nat) :
  Var.init prefix shape1 None var_id1 kwargs1 counter1 = (Ok v1, c1) →
  Var.init prefix shape2 None var_id2 kwargs2 counter2 = (Ok v2, c2) →
  (Var.name v1).1 = (Var.name v2).1 → Var.id v1 = Var.id v2.
Proof.
  intros H1%init_default_name H2%init_default_name. simpl.
  rewrite H1, H2. intros [= Heq].
  by apply (inj (String.app prefix)), (inj pretty) in Heq.
Qed.

Lemma init_default_names_distinct_witness :
  ∃ v1 v2, Var.init "var" [] None (Some 3) ∅ 0 = (Ok v1, 0) ∧
           Var.init "var" [2] None (Some 3) ∅ 7 = (Ok v2, 7) ∧
           Var.id v1 = Var.id v2.
Proof.
  eexists _, _. split; [by vm_compute|]. split; [by vm_compute|].
  eapply (init_default_names_distinct "var" [] [2] (Some 3) (Some 3) ∅ ∅ 0 7);
    by vm_compute.
Defined.

(** X10. Without [var_id] the constructor takes its id from the generator, also
    when the construction then fails, so two constructions in a row give
    two different ids. *)
Theorem init_fresh_ids (prefix : string) (shape1 shape2 : list nat)
    (name1 name2 : option string) (kwargs1 kwargs2 : gmap string bool)
    (counter : nat) :
  let r1 := Var.init prefix shape1 name1 None kwargs1 counter in
  let r2 := Var.init prefix shape2 name2 None kwargs2 r1.2 in
  r1.2 = S counter ∧ r2.2 = S (S counter) ∧
  ∀ v1 v2, r1.1 = Ok v1 → r2.1 = Ok v2 →
           Var.id v1 = counter ∧ Var.id v2 = S counter.
Proof.
  unfold Var.init, Var.get_id. simpl.
  destruct (Var.leaf_init shape1 kwargs1) as [[s1 a1]|e1];
    destruct (Var.leaf_init shape2 kwargs2) as [[s2 a2]|e2]; simpl;
    (split; [done|]); (split; [done|]); intros v1 v2 H1 H2;
    by simplify_eq/=.
Qed.

Lemma init_fresh_ids_witness :
  ∃ v1 v2, (Var.init "var" [2; 3] None None ∅ 4).1 = Ok v1 ∧
           (Var.init "var" [] None None ∅ 5).1 = Ok v2 ∧
           Var.id v1 = 4 ∧ Var.id v2 = 5.
Proof.
  eexists _, _. split; [by vm_compute|]. split; [by vm_compute|].
  apply (init_fresh_ids "var" [2; 3] [] None None ∅ ∅ 4); by vm_compute.
Defined.

(** ** The shapes of the canonical form *)

Lemma well_constructed_square self :
  Var.well_constructed self = true →
  Var.flag (Var.attributes self) "symmetric"
  || Var.flag (Var.attributes self) "PSD"
  || Var.flag (Var.attributes self) "NSD" = true →
  ∃ n, Var.shape self = [n; n].
Proof.
  intros (a & b & c & d & e & Ha & Hb & Hc & Hd & He & Hsq)%well_constructed_inv.
  unfold Var.flag. rewrite Hc, Hd, He. exact Hsq.
Qed.

Lemma canonical_obj_shapes self obj :
  Var.well_constructed self = true → Var.canonical_obj self = Ok obj →
  lin_op_shape obj = Var.shape self ∧ shapes_agree obj = true.
Proof.
  intros Hwc. rewrite canonical_obj_ok by done. intros [= <-].
  destruct (_ || _) eqn:Hsym.
  - destruct (well_constructed_square self Hwc Hsym) as [n ->]. simpl.
    split; [done|].
    rewrite !bool_decide_eq_true_2; [done|simpl; lia|done..].
  - done.
Qed.

(** X11. For every well constructed variable the canonical term has the shape
    of the variable and its declared shapes agree (the constant has the
    shape of the expansion matrix, the product is (n*n, N) by (N, 1), the
    reshape keeps the number of entries); every constraint is about a term
    of that shape, and a semidefinite constraint is only placed on a
    square term. *)
Theorem canonicalize_shapes (self : Var.t) :
  Var.well_constructed self = true →
  ∃ obj constr,
    (Var.canonicalize self).1 = Ok (obj, constr) ∧
    lin_op_shape obj = Var.shape self ∧
    shapes_agree obj = true ∧
    Forall (λ c, lin_op_shape (constr_expr c) = Var.shape self ∧
                 shapes_agree (constr_expr c) = true) constr ∧
    (∀ e, PSD e ∈ constr → ∃ n, lin_op_shape e = [n; n]).
Proof.
  intros Hwc. unfold Var.canonicalize, Var.lift. simpl.
  destruct (Var.canonical_obj self) as [obj|e] eqn:Hobj;
    [|by rewrite canonical_obj_ok in Hobj].
  destruct (canonical_obj_shapes self obj Hwc Hobj) as [Hshape Hagree].
  simpl. rewrite canonical_constr_ok by done. simpl.
  exists obj. eexists. split; [done|]. split; [done|]. split; [done|]. split.
  - repeat case_match; repeat constructor; done.
  - intros e He.
    destruct (Var.flag (Var.attributes self) "nonneg");
      [by apply list_elem_of_singleton in He|].
    destruct (Var.flag (Var.attributes self) "nonpos");
      [by apply list_elem_of_singleton in He|].
    destruct (Var.flag (Var.attributes self) "PSD") eqn:Hpsd.
    + apply list_elem_of_singleton in He as [= ->]. rewrite Hshape.
      apply well_constructed_square; [done|]. rewrite Hpsd.
      by rewrite orb_true_r.
    + destruct (Var.flag (Var.attributes self) "NSD") eqn:Hnsd;
        [|by apply elem_of_nil in He].
      apply list_elem_of_singleton in He as [= ->]. simpl. rewrite Hshape.
      apply well_constructed_square; [done|]. rewrite Hnsd.
      by rewrite orb_true_r.
Qed.

Lemma canonicalize_shapes_witness :
  ∃ obj constr,
    (Var.canonicalize (Var.sample [3; 3] {["NSD" := true]})).1 =
      Ok (obj, constr) ∧
    lin_op_shape obj = [3; 3] ∧ shapes_agree obj = true.
Proof.
  destruct (canonicalize_shapes (Var.sample [3; 3] {["NSD" := true]}))
    as (obj & constr & Hc & Hs & Ha & _); [by vm_compute|].
  exists obj, constr. split; [exact Hc|]. split; [exact Hs|exact Ha].
Defined.
